(** * Deterministic Policy Gradient loss ([trfl/dpg_ops.py])

    [dpg] builds a handful of TensorFlow graph nodes around one call to
    the reverse-mode differentiation engine.  The development has three
    layers.

    - Tensor values.  Elements are real numbers: the arithmetic of the
      engine is taken to be exact, rounding, overflow and NaN are outside
      the model.  Tensors have rank 0, 1 or 2; an element-wise operation
      on two tensors wants equal shapes (no broadcasting), anything else
      is an evaluation error.
    - The graph engine: the part of the TensorFlow graph API that [dpg]
      calls.  A tensor is a node of a computation graph and knows what it
      was computed from; every node has an identity; an operation adds a
      fresh node to the default graph; [tf_gradients] back-propagates
      through the graph with the gradient functions of the operations and
      answers [None] where no differentiable path exists; a node is
      evaluated under a feed for the placeholders.
    - [dpg] itself, statement by statement, and what it promises. *)

From Stdlib Require Import String Reals Lra List Arith Lia Bool.
Import ListNotations.

Local Open Scope R_scope.

(** ** Tensor values *)

Inductive value : Type :=
| V0 (r : R)                     (* shape []      *)
| V1 (l : list R)                (* shape [B]     *)
| V2 (m : list (list R)).        (* shape [B, A]  *)

Definition obind {A B : Type} (o : option A) (f : A -> option B) : option B :=
  match o with
  | Some a => f a
  | None => None
  end.

Fixpoint zip_with (f : R -> R -> R) (l1 l2 : list R) : option (list R) :=
  match l1, l2 with
  | [], [] => Some []
  | x :: l1', y :: l2' => option_map (cons (f x y)) (zip_with f l1' l2')
  | _, _ => None
  end.

Fixpoint zip_with2 (f : R -> R -> R) (m1 m2 : list (list R))
  : option (list (list R)) :=
  match m1, m2 with
  | [], [] => Some []
  | r1 :: m1', r2 :: m2' =>
      obind (zip_with f r1 r2) (fun r =>
      option_map (cons r) (zip_with2 f m1' m2'))
  | _, _ => None
  end.

(** Element-wise unary and binary operations.  A binary operation on
    tensors of different shapes is an evaluation error. *)
Definition lift1 (f : R -> R) (v : value) : value :=
  match v with
  | V0 r => V0 (f r)
  | V1 l => V1 (map f l)
  | V2 m => V2 (map (map f) m)
  end.

Definition lift2 (f : R -> R -> R) (v w : value) : option value :=
  match v, w with
  | V0 a, V0 b => Some (V0 (f a b))
  | V1 l1, V1 l2 => option_map V1 (zip_with f l1 l2)
  | V2 m1, V2 m2 => option_map V2 (zip_with2 f m1 m2)
  | _, _ => None
  end.

Definition sum_list (l : list R) : R := fold_right Rplus 0 l.

(** [reduce_sum(v, axis=-1)]: the last axis is summed away. *)
Definition reduce_sum (v : value) : option value :=
  match v with
  | V0 _ => None
  | V1 l => Some (V0 (sum_list l))
  | V2 m => Some (V1 (map sum_list m))
  end.

Fixpoint fill_rows (l : list R) (m : list (list R)) : option (list (list R)) :=
  match l, m with
  | [], [] => Some []
  | x :: l', r :: m' => option_map (cons (map (fun _ => x) r)) (fill_rows l' m')
  | _, _ => None
  end.

(** [broadcast_like v w]: [v] has the shape of [w] without its last axis;
    every entry of [v] is repeated along that axis. *)
Definition broadcast_like (v w : value) : option value :=
  match v, w with
  | V0 x, V1 l => Some (V1 (map (fun _ => x) l))
  | V1 l, V2 m => option_map V2 (fill_rows l m)
  | _, _ => None
  end.

Definition mask_ge (c g a : R) : R := if Rle_dec c a then g else 0.
Definition mask_le (c g a : R) : R := if Rle_dec a c then g else 0.

(** ** The graph engine *)

Inductive unop : Type :=
| Neg | Square | Sqrt
| ScalarMul (c : R)              (* c * x, c a Python number *)
| Maximum (c : R)                (* maximum(x, c)            *)
| Minimum (c : R)                (* minimum(x, c)            *)
| ReduceSum                      (* reduce_sum(x, axis=-1)   *)
| OnesLike
| StopGradient.

Inductive binop : Type :=
| Add | Sub | Mul | RealDiv
| BroadcastLike                  (* first operand tiled to the shape of the second *)
| MaskGE (c : R)                 (* where(y >= c, x, 0) *)
| MaskLE (c : R).                (* where(y <= c, x, 0) *)

(** A tensor is a node of the graph together with everything it was
    computed from.  The first field of every constructor is the node's
    identity: two nodes are the same node iff they carry the same id. *)
Inductive Tensor : Type :=
| Placeholder (id : nat)
| Const (id : nat) (v : value)
| Unary (id : nat) (o : unop) (x : Tensor)
| Binary (id : nat) (o : binop) (x y : Tensor).

Definition id_of (t : Tensor) : nat :=
  match t with
  | Placeholder n | Const n _ | Unary n _ _ | Binary n _ _ _ => n
  end.

(** *** Evaluation (one [session.run] under a feed) *)

Definition eval_un (o : unop) (v : value) : option value :=
  match o with
  | Neg => Some (lift1 Ropp v)
  | Square => Some (lift1 (fun x => x * x) v)
  | Sqrt => Some (lift1 sqrt v)
  | ScalarMul c => Some (lift1 (Rmult c) v)
  | Maximum c => Some (lift1 (fun x => Rmax x c) v)
  | Minimum c => Some (lift1 (fun x => Rmin x c) v)
  | ReduceSum => reduce_sum v
  | OnesLike => Some (lift1 (fun _ => 1) v)
  | StopGradient => Some v
  end.

Definition eval_bin (o : binop) (v w : value) : option value :=
  match o with
  | Add => lift2 Rplus v w
  | Sub => lift2 Rminus v w
  | Mul => lift2 Rmult v w
  | RealDiv => lift2 Rdiv v w
  | BroadcastLike => broadcast_like v w
  | MaskGE c => lift2 (mask_ge c) v w
  | MaskLE c => lift2 (mask_le c) v w
  end.

Definition Feed := nat -> option value.

Fixpoint eval (feed : Feed) (t : Tensor) : option value :=
  match t with
  | Placeholder n => feed n
  | Const _ v => Some v
  | Unary _ o x => obind (eval feed x) (eval_un o)
  | Binary _ o x y =>
      obind (eval feed x) (fun v =>
      obind (eval feed y) (fun w => eval_bin o v w))
  end.

(** *** Errors and the graph-building monad *)

(** A Python error message: a literal, or a format string with the
    number that [str.format] substitutes for its [{}]. *)
Inductive message : Type :=
| Msg (s : string)
| Format (s : string) (arg : R).

Inductive exn : Type :=
| ValueError (m : message).

(** The default graph, as far as identities go: the number of nodes
    created so far, which is the id the next node gets. *)
Definition Graph := nat.

Inductive result (A : Type) : Type :=
| Ok (a : A) (g : Graph)
| Raised (e : exn).
Arguments Ok {A} a g.
Arguments Raised {A} e.

Definition TF (A : Type) : Type := Graph -> result A.

Definition ret {A : Type} (a : A) : TF A := fun g => Ok a g.

Definition bind {A B : Type} (c : TF A) (k : A -> TF B) : TF B :=
  fun g =>
    match c g with
    | Ok a g' => k a g'
    | Raised e => Raised e
    end.

Definition raise {A : Type} (e : exn) : TF A := fun _ => Raised e.

Notation "x <- c ;; k" := (bind c (fun x => k))
  (at level 61, c at next level, right associativity).

Definition fresh : TF nat := fun g => Ok g (S g).

Definition unary (o : unop) (x : Tensor) : TF Tensor :=
  n <- fresh ;; ret (Unary n o x).

Definition binary (o : binop) (x y : Tensor) : TF Tensor :=
  n <- fresh ;; ret (Binary n o x y).

Definition tf_negative := unary Neg.
Definition tf_square := unary Square.
Definition tf_sqrt := unary Sqrt.
Definition tf_scalar_mul (c : R) := unary (ScalarMul c).
Definition tf_maximum (x : Tensor) (c : R) := unary (Maximum c) x.
Definition tf_minimum (x : Tensor) (c : R) := unary (Minimum c) x.
Definition tf_reduce_sum := unary ReduceSum.
Definition tf_ones_like := unary OnesLike.
Definition tf_stop_gradient := unary StopGradient.
Definition tf_add := binary Add.
Definition tf_subtract := binary Sub.
Definition tf_multiply := binary Mul.
Definition tf_divide := binary RealDiv.
Definition tf_broadcast_like := binary BroadcastLike.

(** *** Reverse-mode differentiation *)

(** The gradient function registered for a unary operation: from the
    node [t = o(x)] and the gradient [g] that arrived at [t], the
    gradient that goes on to [x]; [None] when nothing goes on. *)
Definition grad_un (o : unop) (t x g : Tensor) : TF (option Tensor) :=
  match o with
  | Neg => g' <- tf_negative g ;; ret (Some g')
  | Square => x2 <- tf_scalar_mul 2 x ;; g' <- tf_multiply g x2 ;; ret (Some g')
  | Sqrt => h <- tf_scalar_mul (1 / 2) g ;; g' <- tf_divide h t ;; ret (Some g')
  | ScalarMul c => g' <- tf_scalar_mul c g ;; ret (Some g')
  | Maximum c => g' <- binary (MaskGE c) g x ;; ret (Some g')
  | Minimum c => g' <- binary (MaskLE c) g x ;; ret (Some g')
  | ReduceSum => g' <- tf_broadcast_like g x ;; ret (Some g')
  | OnesLike => ret None
  | StopGradient => ret None
  end.

(** The same for a binary operation [o(x, y)]: one gradient per operand. *)
Definition grad_bin (o : binop) (x y g : Tensor)
  : TF (option Tensor * option Tensor) :=
  match o with
  | Add => ret (Some g, Some g)
  | Sub => gy <- tf_negative g ;; ret (Some g, Some gy)
  | Mul => gx <- tf_multiply g y ;; gy <- tf_multiply g x ;;
           ret (Some gx, Some gy)
  | RealDiv =>
      gx <- tf_divide g y ;;
      nx <- tf_negative x ;;
      q1 <- tf_divide nx y ;;
      q2 <- tf_divide q1 y ;;
      gy <- tf_multiply g q2 ;;
      ret (Some gx, Some gy)
  | BroadcastLike => gx <- tf_reduce_sum g ;; ret (Some gx, None)
  | MaskGE c => gx <- binary (MaskGE c) g y ;; ret (Some gx, None)
  | MaskLE c => gx <- binary (MaskLE c) g y ;; ret (Some gx, None)
  end.

(** Contributions that reach the same node along different paths are
    summed; no contribution at all stays [None]. *)
Definition add_n (a b : option Tensor) : TF (option Tensor) :=
  match a, b with
  | None, None => ret None
  | Some ga, None => ret (Some ga)
  | None, Some gb => ret (Some gb)
  | Some ga, Some gb => s <- tf_add ga gb ;; ret (Some s)
  end.

(** [backprop t g x]: the gradient [g] has arrived at node [t]; what
    arrives at the node with id [x]. *)
Fixpoint backprop (t g : Tensor) (x : nat) : TF (option Tensor) :=
  if Nat.eqb (id_of t) x then ret (Some g)
  else
    match t with
    | Placeholder _ => ret None
    | Const _ _ => ret None
    | Unary _ o a =>
        ga <- grad_un o t a g ;;
        match ga with
        | Some ga => backprop a ga x
        | None => ret None
        end
    | Binary _ o a b =>
        gs <- grad_bin o a b g ;;
        ra <- match fst gs with
              | Some ga => backprop a ga x
              | None => ret None
              end ;;
        rb <- match snd gs with
              | Some gb => backprop b gb x
              | None => ret None
              end ;;
        add_n ra rb
    end.

(** [tf.gradients([y], [x])[0]]: the initial gradient is [ones_like(y)];
    the answer is [None] when no differentiable path leads from [x] to
    [y]. *)
Definition tf_gradients (y x : Tensor) : TF (option Tensor) :=
  g0 <- tf_ones_like y ;; backprop y g0 (id_of x).

(** [tf.clip_by_value(t, lo, hi)] is [maximum(minimum(t, hi), lo)]. *)
Definition tf_clip_by_value (t : Tensor) (lo hi : R) : TF Tensor :=
  t_min <- tf_minimum t hi ;;
  tf_maximum t_min lo.

(** [tf.clip_by_norm(t, c, axes=-1)] is
    [t * c / maximum(sqrt(reduce_sum(t * t, -1, keepdims=True)), c)]. *)
Definition tf_clip_by_norm (t : Tensor) (c : R) : TF Tensor :=
  tt <- tf_multiply t t ;;
  s <- tf_reduce_sum tt ;;
  l2norm <- tf_sqrt s ;;
  intermediate <- tf_scalar_mul c t ;;
  m <- tf_maximum l2norm c ;;
  mb <- tf_broadcast_like m t ;;
  tf_divide intermediate mb.

(** ** The DPG loss *)

Record DPGExtra : Type := mkDPGExtra {
  q_max : Tensor;
  a_max : Tensor;
  dqda : Tensor
}.

(** Modelled from the spec: [base_ops.LossOutput] is declared outside
    [dpg_ops.py]; the function returns "the per-batch-element loss
    vector, plus an auxiliary record", the fields [loss] and [extra] of
    its docstring. *)
Record LossOutput : Type := mkLossOutput {
  loss : Tensor;
  extra : DPGExtra
}.

Definition dpg (q_max a_max : Tensor) (dqda_clipping : option R)
  (clip_norm : bool) : TF LossOutput :=
  (* Calculate the gradient dq/da. *)
  dqda <- tf_gradients q_max a_max ;;
  (* Check that q_max depends on a_max. *)
  match dqda with
  | None => raise (ValueError (Msg "q_max needs to be a function of a_max"))
  | Some dqda =>
      (* Clipping the gradient dq/da. *)
      dqda <- match dqda_clipping with
              | Some dqda_clipping =>
                  if Rle_dec dqda_clipping 0 then
                    raise (ValueError
                             (Format "dqda_clipping should be bigger than 0, {} found"
                                     dqda_clipping))
                  else if clip_norm then
                    tf_clip_by_norm dqda dqda_clipping
                  else
                    tf_clip_by_value dqda (-1 * dqda_clipping) dqda_clipping
              | None => ret dqda
              end ;;
      (* Target_a ensures correct gradient calculated during backprop. *)
      target_a <- tf_add dqda a_max ;;
      (* Stop the gradient going through Q network when backprop. *)
      target_a <- tf_stop_gradient target_a ;;
      (* Gradient only go through actor network. *)
      d <- tf_subtract target_a a_max ;;
      sq <- tf_square d ;;
      s <- tf_reduce_sum sq ;;
      loss <- tf_scalar_mul (1 / 2) s ;;
      ret (mkLossOutput loss (mkDPGExtra q_max a_max dqda))
  end.

(** The scope label [name] of the source only prefixes the names of the
    nodes ([tf.name_scope]); identities here are numbers, so it has no
    counterpart. *)

(** ** Differentiable dependency *)

Definition differentiable (o : unop) : bool :=
  match o with
  | OnesLike | StopGradient => false
  | _ => true
  end.

Definition differentiable_snd (o : binop) : bool :=
  match o with
  | Add | Sub | Mul | RealDiv => true
  | BroadcastLike | MaskGE _ | MaskLE _ => false
  end.

(** [depends_on t x]: some path of differentiable operands leads from
    the node [t] down to the node with id [x]. *)
Fixpoint depends_on (t : Tensor) (x : nat) : bool :=
  Nat.eqb (id_of t) x ||
  match t with
  | Placeholder _ => false
  | Const _ _ => false
  | Unary _ o a => differentiable o && depends_on a x
  | Binary _ o a b => depends_on a x || (differentiable_snd o && depends_on b x)
  end.

Definition is_some {A : Type} (o : option A) : bool :=
  match o with
  | Some _ => true
  | None => false
  end.

(** ** The nodes that [dpg] adds

    With [n] the next free id: the nodes of [tf.clip_by_value], of
    [tf.clip_by_norm], and of lines 88 to 92 of the source. *)

Definition clip_by_value_node (n : nat) (t : Tensor) (lo hi : R) : Tensor :=
  Unary (n + 1) (Maximum lo) (Unary n (Minimum hi) t).

Definition clip_by_norm_node (n : nat) (t : Tensor) (c : R) : Tensor :=
  Binary (n + 6) RealDiv
    (Unary (n + 3) (ScalarMul c) t)
    (Binary (n + 5) BroadcastLike
       (Unary (n + 4) (Maximum c)
          (Unary (n + 2) Sqrt (Unary (n + 1) ReduceSum (Binary n Mul t t))))
       t).

Definition target_node (n : nat) (d a : Tensor) : Tensor :=
  Unary (n + 1) StopGradient (Binary n Add d a).

Definition loss_node (n : nat) (d a : Tensor) : Tensor :=
  Unary (n + 5) (ScalarMul (1 / 2))
    (Unary (n + 4) ReduceSum
       (Unary (n + 3) Square
          (Binary (n + 2) Sub (target_node n d a) a))).


(** ** Vocabulary of the statements *)

Definition sq (x : R) : R := x * x.

(** [0.5 * ||row||^2]. *)
Definition half_sq_norm (row : list R) : R := 1 / 2 * sum_list (map sq row).

Definition l2norm (row : list R) : R := sqrt (sum_list (map sq row)).

(** The clamp of [x] into [[lo, hi]]. *)
Definition clamp (lo hi x : R) : R :=
  if Rlt_dec x lo then lo else if Rlt_dec hi x then hi else x.

(** What the nodes of [tf.clip_by_norm] compute on one row. *)
Definition clip_row (c : R) (row : list R) : list R :=
  map (fun x => c * x / Rmax (l2norm row) c) row.

(** The row-wise lengths of a rank-2 tensor, and the shape of a value. *)
Definition dims (m : list (list R)) : list nat := map (@length R) m.

Inductive shape : Type :=
| Sh0
| Sh1 (n : nat)
| Sh2 (ns : list nat).

Definition shape_of (v : value) : shape :=
  match v with
  | V0 _ => Sh0
  | V1 l => Sh1 (length l)
  | V2 m => Sh2 (dims m)
  end.

Definition Forall_value (P : R -> Prop) (v : value) : Prop :=
  match v with
  | V0 r => P r
  | V1 l => Forall P l
  | V2 m => Forall (Forall P) m
  end.

(** The shape that [reduce_sum(_, axis=-1)] leaves. *)
Definition reduce_shape (s : shape) : option shape :=
  match s with
  | Sh0 => None
  | Sh1 _ => Some Sh0
  | Sh2 ns => Some (Sh1 (length ns))
  end.

(** [t] evaluates under [feed], to a value of shape [s]. *)
Definition has_shape (feed : Feed) (t : Tensor) (s : shape) : Prop :=
  exists v, eval feed t = Some v /\ shape_of v = s.

(** The id of [a] names one node of the graph of [t]: a node of [t] that
    carries it is [a]. *)
Fixpoint unique_node (a t : Tensor) : Prop :=
  if Nat.eqb (id_of t) (id_of a) then t = a
  else
    match t with
    | Placeholder _ => True
    | Const _ _ => True
    | Unary _ _ x => unique_node a x
    | Binary _ _ x y => unique_node a x /\ unique_node a y
    end.

(** ** A worked graph

    Batch size 1, action dimension 2: the action is a placeholder fed
    with [[1, 1]], the value estimate is [-reduce_sum(square(a), -1)],
    and a second value estimate that ignores the action. *)
Module Example.

Definition a : Tensor := Placeholder 0.

Definition q : Tensor :=
  Unary 3 Neg (Unary 2 ReduceSum (Unary 1 Square a)).

Definition q_const : Tensor := Const 4 (V1 [5]).

Definition graph : Graph := 5%nat.

Definition feed : Feed :=
  fun n => match n with
           | O => Some (V2 [[1; 1]])
           | _ => None
           end.

(** The gradient graph that back-propagation adds for [q] and [a], and
    what an unclipped call returns. *)
Definition dqda_raw : Tensor :=
  Binary 9 Mul
    (Binary 7 BroadcastLike (Unary 6 Neg (Unary 5 OnesLike q))
       (Unary 1 Square a))
    (Unary 8 (ScalarMul 2) a).

Definition out : LossOutput :=
  mkLossOutput (loss_node 10 dqda_raw a) (mkDPGExtra q a dqda_raw).

End Example.

(** An actor and a critic: the action is [theta * state], the value
    estimate is [reduce_sum(w * a, -1)] with a weight [w] of its own. *)
Module ActorCritic.

Definition theta : Tensor := Placeholder 0.

Definition state : Tensor := Placeholder 1.

Definition a : Tensor := Binary 2 Mul theta state.

Definition w : Tensor := Placeholder 3.

Definition q : Tensor := Unary 5 ReduceSum (Binary 4 Mul w a).

Definition graph : Graph := 6%nat.

Definition dqda_raw : Tensor :=
  Binary 9 Mul
    (Binary 7 BroadcastLike (Unary 6 OnesLike q) (Binary 4 Mul w a))
    w.

Definition out : LossOutput :=
  mkLossOutput (loss_node 10 dqda_raw a) (mkDPGExtra q a dqda_raw).

End ActorCritic.

(** ** Running the graph builder *)

Lemma bind_Ok {A B : Type} (c : TF A) (k : A -> TF B) g a g1 :
  c g = Ok a g1 -> bind c k g = k a g1.
Proof. intros H. unfold bind. now rewrite H. Qed.

Lemma bind_Raised {A B : Type} (c : TF A) (k : A -> TF B) g e :
  c g = Raised e -> bind c k g = Raised e.
Proof. intros H. unfold bind. now rewrite H. Qed.

Lemma bind_inv {A B : Type} (c : TF A) (k : A -> TF B) g b g' :
  bind c k g = Ok b g' -> exists a g1, c g = Ok a g1 /\ k a g1 = Ok b g'.
Proof.
  unfold bind. destruct (c g) as [a g1|e]; intros H.
  - now exists a, g1.
  - discriminate.
Qed.

Lemma backprop_eq t g x :
  backprop t g x =
  if Nat.eqb (id_of t) x then ret (Some g)
  else
    match t with
    | Placeholder _ => ret None
    | Const _ _ => ret None
    | Unary _ o a =>
        ga <- grad_un o t a g ;;
        match ga with
        | Some ga => backprop a ga x
        | None => ret None
        end
    | Binary _ o a b =>
        gs <- grad_bin o a b g ;;
        ra <- match fst gs with
              | Some ga => backprop a ga x
              | None => ret None
              end ;;
        rb <- match snd gs with
              | Some gb => backprop b gb x
              | None => ret None
              end ;;
        add_n ra rb
    end.
Proof. destruct t; reflexivity. Qed.

(** The registered gradient functions never fail, only add nodes, and
    pass a gradient on exactly to the differentiable operands. *)
Lemma grad_un_spec o t x u g :
  exists r g', grad_un o t x u g = Ok r g' /\ (g <= g')%nat /\
               is_some r = differentiable o.
Proof.
  destruct o; cbn; eexists; eexists; (split; [reflexivity|]); split;
    try reflexivity; lia.
Qed.

Lemma grad_bin_spec o x y u g :
  exists rx ry g', grad_bin o x y u g = Ok (rx, ry) g' /\ (g <= g')%nat /\
                   is_some rx = true /\ is_some ry = differentiable_snd o.
Proof.
  destruct o; cbn; eexists; eexists; eexists; (split; [reflexivity|]);
    repeat split; lia.
Qed.

Lemma add_n_spec a b g :
  exists r g', add_n a b g = Ok r g' /\ (g <= g')%nat /\
               is_some r = is_some a || is_some b.
Proof.
  destruct a, b; cbn; eexists; eexists; (split; [reflexivity|]); split;
    try reflexivity; lia.
Qed.

(** Back-propagation is total, and it delivers a gradient at [x]
    exactly when [t] depends on [x]. *)
Lemma backprop_spec t : forall u x g,
  exists r g', backprop t u x g = Ok r g' /\ (g <= g')%nat /\
               is_some r = depends_on t x.
Proof.
  induction t as [n|n v|n o a IHa|n o a IHa b IHb]; intros u x g;
    rewrite backprop_eq; cbn [depends_on id_of];
    destruct (Nat.eqb n x) eqn:E; cbn [orb];
    try (now exists (Some u), g; repeat split);
    try (now exists None, g; repeat split).
  - destruct (grad_un_spec o (Unary n o a) a u g) as (r & g1 & H1 & Hle & Hs).
    rewrite (bind_Ok _ _ _ _ _ H1).
    destruct r as [ga|]; cbn in Hs; rewrite <- Hs; cbn [andb].
    + destruct (IHa ga x g1) as (r' & g2 & H2 & Hle2 & Hs2).
      exists r', g2. repeat split; auto. lia.
    + exists None, g1. repeat split; auto.
  - destruct (grad_bin_spec o a b u g) as (rx & ry & g1 & H1 & Hle & Hx & Hy).
    rewrite (bind_Ok _ _ _ _ _ H1). cbn [fst snd].
    destruct rx as [ga|]; [|discriminate].
    destruct (IHa ga x g1) as (ra & g2 & H2 & Hle2 & Hs2).
    rewrite (bind_Ok _ _ _ _ _ H2).
    destruct ry as [gb|]; cbn in Hy; rewrite <- Hy; cbn [andb].
    + destruct (IHb gb x g2) as (rb & g3 & H3 & Hle3 & Hs3).
      rewrite (bind_Ok _ _ _ _ _ H3).
      destruct (add_n_spec ra rb g3) as (r & g4 & H4 & Hle4 & Hs4).
      exists r, g4. repeat split; auto; [lia|].
      now rewrite Hs4, Hs2, Hs3.
    + rewrite (bind_Ok _ _ _ _ _ (eq_refl : ret None g2 = Ok None g2)).
      destruct (add_n_spec ra None g2) as (r & g4 & H4 & Hle4 & Hs4).
      exists r, g4. repeat split; auto; [lia|].
      rewrite Hs4, Hs2. cbn. now rewrite !orb_false_r.
Qed.

Lemma tf_gradients_spec y x g :
  exists r g', tf_gradients y x g = Ok r g' /\ (g < g')%nat /\
               is_some r = depends_on y (id_of x).
Proof.
  unfold tf_gradients.
  rewrite (bind_Ok _ _ _ _ _ (eq_refl : tf_ones_like y g = Ok (Unary g OnesLike y) (S g))).
  destruct (backprop_spec y (Unary g OnesLike y) (id_of x) (S g))
    as (r & g' & H & Hle & Hs).
  exists r, g'. repeat split; auto.
Qed.

(** ** What [dpg] builds *)

Ltac same_nodes := cbn; unfold ret; repeat f_equal; lia.

Lemma tf_clip_by_value_run t lo hi g :
  tf_clip_by_value t lo hi g = Ok (clip_by_value_node g t lo hi) (g + 2)%nat.
Proof. unfold tf_clip_by_value, clip_by_value_node. same_nodes. Qed.

Lemma tf_clip_by_norm_run t c g :
  tf_clip_by_norm t c g = Ok (clip_by_norm_node g t c) (g + 7)%nat.
Proof. unfold tf_clip_by_norm, clip_by_norm_node. same_nodes. Qed.

Lemma dpg_no_gradient q a clip norm g g1 :
  tf_gradients q a g = Ok None g1 ->
  dpg q a clip norm g =
  Raised (ValueError (Msg "q_max needs to be a function of a_max")).
Proof. intros H. unfold dpg. now rewrite (bind_Ok _ _ _ _ _ H). Qed.

Lemma dpg_nonpositive q a c norm g d0 g1 :
  tf_gradients q a g = Ok (Some d0) g1 ->
  c <= 0 ->
  dpg q a (Some c) norm g =
  Raised (ValueError
            (Format "dqda_clipping should be bigger than 0, {} found" c)).
Proof.
  intros H Hc. unfold dpg. rewrite (bind_Ok _ _ _ _ _ H).
  unfold bind at 1. now destruct (Rle_dec c 0).
Qed.

Lemma dpg_unclipped q a norm g d0 g1 :
  tf_gradients q a g = Ok (Some d0) g1 ->
  dpg q a None norm g =
  Ok (mkLossOutput (loss_node g1 d0 a) (mkDPGExtra q a d0)) (g1 + 6)%nat.
Proof.
  intros H. unfold dpg. rewrite (bind_Ok _ _ _ _ _ H).
  unfold loss_node, target_node. same_nodes.
Qed.

Lemma dpg_by_value q a c g d0 g1 :
  tf_gradients q a g = Ok (Some d0) g1 ->
  0 < c ->
  dpg q a (Some c) false g =
  Ok (mkLossOutput (loss_node (g1 + 2) (clip_by_value_node g1 d0 (-1 * c) c) a)
                   (mkDPGExtra q a (clip_by_value_node g1 d0 (-1 * c) c)))
     (g1 + 8)%nat.
Proof.
  intros H Hc. unfold dpg. rewrite (bind_Ok _ _ _ _ _ H).
  unfold bind at 1. destruct (Rle_dec c 0) as [Hle|_]; [lra|].
  rewrite tf_clip_by_value_run. unfold loss_node, target_node. same_nodes.
Qed.

Lemma dpg_by_norm q a c g d0 g1 :
  tf_gradients q a g = Ok (Some d0) g1 ->
  0 < c ->
  dpg q a (Some c) true g =
  Ok (mkLossOutput (loss_node (g1 + 7) (clip_by_norm_node g1 d0 c) a)
                   (mkDPGExtra q a (clip_by_norm_node g1 d0 c)))
     (g1 + 13)%nat.
Proof.
  intros H Hc. unfold dpg. rewrite (bind_Ok _ _ _ _ _ H).
  unfold bind at 1. destruct (Rle_dec c 0) as [Hle|_]; [lra|].
  rewrite tf_clip_by_norm_run. unfold loss_node, target_node. same_nodes.
Qed.

(** Every successful call went through one of the three ways above. *)
Lemma dpg_inv q a clip norm g out g' :
  dpg q a clip norm g = Ok out g' ->
  exists d0 g1,
    tf_gradients q a g = Ok (Some d0) g1 /\
    match clip with
    | None =>
        out = mkLossOutput (loss_node g1 d0 a) (mkDPGExtra q a d0)
    | Some c =>
        0 < c /\
        if norm then
          out = mkLossOutput (loss_node (g1 + 7) (clip_by_norm_node g1 d0 c) a)
                             (mkDPGExtra q a (clip_by_norm_node g1 d0 c))
        else
          out = mkLossOutput
                  (loss_node (g1 + 2) (clip_by_value_node g1 d0 (-1 * c) c) a)
                  (mkDPGExtra q a (clip_by_value_node g1 d0 (-1 * c) c))
    end.
Proof.
  intros H.
  destruct (tf_gradients_spec q a g) as (r & g1 & Hg & _ & _).
  destruct r as [d0|].
  - exists d0, g1. split; [assumption|].
    destruct clip as [c|].
    + destruct (Rle_dec c 0) as [Hle|Hgt].
      * rewrite (dpg_nonpositive _ _ _ _ _ _ _ Hg Hle) in H. discriminate.
      * apply Rnot_le_lt in Hgt. split; [assumption|].
        destruct norm.
        -- rewrite (dpg_by_norm _ _ _ _ _ _ Hg Hgt) in H. now inversion H.
        -- rewrite (dpg_by_value _ _ _ _ _ _ Hg Hgt) in H. now inversion H.
    + rewrite (dpg_unclipped _ _ _ _ _ _ Hg) in H. now inversion H.
  - rewrite (dpg_no_gradient _ _ _ _ _ _ Hg) in H. discriminate.
Qed.

(** The loss of a successful call is built by lines 88 to 92 from the
    returned [dqda], with ids that did not exist before the call. *)
Lemma dpg_loss_node q a clip norm g out g' :
  dpg q a clip norm g = Ok out g' ->
  exists n, (g < n)%nat /\ loss out = loss_node n (dqda (extra out)) a.
Proof.
  intros H. destruct (dpg_inv _ _ _ _ _ _ _ H) as (d0 & g1 & Hg & Hout).
  destruct (tf_gradients_spec q a g) as (r & g1' & Hg' & Hlt & _).
  rewrite Hg in Hg'. injection Hg' as _ <-.
  destruct clip as [c|].
  - destruct Hout as [_ Hout]. destruct norm; subst out; cbn.
    + exists (g1 + 7)%nat. split; [lia|reflexivity].
    + exists (g1 + 2)%nat. split; [lia|reflexivity].
  - subst out; cbn. exists g1. split; [lia|reflexivity].
Qed.

(** ** Values: shapes and element-wise operations *)

Lemma zip_with_length f l1 : forall l2 l,
  zip_with f l1 l2 = Some l -> length l1 = length l2 /\ length l = length l2.
Proof.
  induction l1 as [|x l1 IH]; intros [|y l2] l H; cbn in H; try discriminate.
  - injection H as <-. now split.
  - destruct (zip_with f l1 l2) as [l'|] eqn:E; cbn in H; [|discriminate].
    injection H as <-. destruct (IH _ _ E) as [H1 H2]. cbn. now rewrite H1, H2.
Qed.

Lemma zip_with_total f l1 : forall l2,
  length l1 = length l2 -> exists l, zip_with f l1 l2 = Some l.
Proof.
  induction l1 as [|x l1 IH]; intros [|y l2] H; cbn in H; try discriminate.
  - now exists [].
  - injection H as H. destruct (IH _ H) as [l E]. cbn. rewrite E. now eexists.
Qed.


Lemma zip_with_plus_minus l1 : forall l2 l,
  zip_with Rplus l1 l2 = Some l -> zip_with Rminus l l2 = Some l1.
Proof.
  induction l1 as [|x l1 IH]; intros [|y l2] l H; cbn in H; try discriminate.
  - now injection H as <-.
  - destruct (zip_with Rplus l1 l2) as [l'|] eqn:E; cbn in H; [|discriminate].
    injection H as <-. cbn. rewrite (IH _ _ E). cbn. f_equal. f_equal. lra.
Qed.

Lemma zip_with2_dims f m1 : forall m2 m,
  zip_with2 f m1 m2 = Some m -> dims m1 = dims m2 /\ dims m = dims m2.
Proof.
  induction m1 as [|r1 m1 IH]; intros [|r2 m2] m H; cbn in H; try discriminate.
  - injection H as <-. now split.
  - destruct (zip_with f r1 r2) as [r|] eqn:Er; cbn in H; [|discriminate].
    destruct (zip_with2 f m1 m2) as [m'|] eqn:E; cbn in H; [|discriminate].
    injection H as <-. destruct (IH _ _ E) as [H1 H2].
    destruct (zip_with_length _ _ _ _ Er) as [H3 H4].
    unfold dims in *. cbn [map]. now rewrite H1, H2, H3, H4.
Qed.

Lemma zip_with2_total f m1 : forall m2,
  dims m1 = dims m2 -> exists m, zip_with2 f m1 m2 = Some m.
Proof.
  induction m1 as [|r1 m1 IH]; intros [|r2 m2] H; cbn in H; try discriminate.
  - now exists [].
  - unfold dims in H. cbn [map] in H. injection H as Hr H.
    destruct (IH _ H) as [m E].
    destruct (zip_with_total f _ _ Hr) as [r Er].
    cbn. rewrite Er. cbn. rewrite E. now eexists.
Qed.


Lemma zip_with2_plus_minus m1 : forall m2 m,
  zip_with2 Rplus m1 m2 = Some m -> zip_with2 Rminus m m2 = Some m1.
Proof.
  induction m1 as [|r1 m1 IH]; intros [|r2 m2] m H; cbn in H; try discriminate.
  - now injection H as <-.
  - destruct (zip_with Rplus r1 r2) as [r|] eqn:Er; cbn in H; [|discriminate].
    destruct (zip_with2 Rplus m1 m2) as [m'|] eqn:E; cbn in H; [|discriminate].
    injection H as <-. cbn.
    rewrite (zip_with_plus_minus _ _ _ Er). cbn. now rewrite (IH _ _ E).
Qed.

Lemma lift1_shape f v : shape_of (lift1 f v) = shape_of v.
Proof.
  destruct v as [r|l|m]; cbn; [reflexivity|now rewrite length_map|].
  unfold dims. rewrite map_map. f_equal. apply map_ext. intros r.
  apply length_map.
Qed.

Lemma lift2_shape f v w u :
  lift2 f v w = Some u -> shape_of v = shape_of w /\ shape_of u = shape_of w.
Proof.
  destruct v as [x|l1|m1], w as [y|l2|m2]; cbn [lift2]; try discriminate.
  - intros H. injection H as <-. now split.
  - destruct (zip_with f l1 l2) as [l|] eqn:E; cbn [option_map]; [|discriminate].
    intros H. injection H as <-. destruct (zip_with_length _ _ _ _ E) as [H1 H2].
    cbn [shape_of]. now rewrite H1, H2.
  - destruct (zip_with2 f m1 m2) as [m|] eqn:E; cbn [option_map]; [|discriminate].
    intros H. injection H as <-. destruct (zip_with2_dims _ _ _ _ E) as [H1 H2].
    cbn [shape_of]. now rewrite H1, H2.
Qed.

Lemma lift2_total f v w :
  shape_of v = shape_of w -> exists u, lift2 f v w = Some u.
Proof.
  destruct v as [x|l1|m1], w as [y|l2|m2]; cbn; try discriminate; intros H.
  - now eexists.
  - injection H as H. destruct (zip_with_total f _ _ H) as [l E].
    rewrite E. now eexists.
  - injection H as H. destruct (zip_with2_total f _ _ H) as [m E].
    rewrite E. now eexists.
Qed.

Lemma lift2_plus_minus v w u :
  lift2 Rplus v w = Some u -> lift2 Rminus u w = Some v.
Proof.
  destruct v as [x|l1|m1], w as [y|l2|m2]; cbn; try discriminate.
  - intros H. injection H as <-. cbn. f_equal. f_equal. lra.
  - destruct (zip_with Rplus l1 l2) as [l|] eqn:E; cbn; [|discriminate].
    intros H. injection H as <-. cbn. now rewrite (zip_with_plus_minus _ _ _ E).
  - destruct (zip_with2 Rplus m1 m2) as [m|] eqn:E; cbn; [|discriminate].
    intros H. injection H as <-. cbn. now rewrite (zip_with2_plus_minus _ _ _ E).
Qed.

Lemma lift1_lift1 f h v : lift1 f (lift1 h v) = lift1 (fun x => f (h x)) v.
Proof.
  destruct v as [r|l|m]; cbn; [reflexivity|now rewrite map_map|].
  rewrite map_map. f_equal. apply map_ext. intros r. apply map_map.
Qed.

Lemma lift1_ext f h v : (forall x, f x = h x) -> lift1 f v = lift1 h v.
Proof.
  intros E. destruct v as [r|l|m]; cbn; f_equal; auto using map_ext.
Qed.

Lemma Forall_value_lift1 (P : R -> Prop) f v :
  (forall x, P (f x)) -> Forall_value P (lift1 f v).
Proof.
  intros H. destruct v as [r|l|m]; cbn; [apply H| |].
  - apply Forall_forall. intros y Hy. apply in_map_iff in Hy.
    destruct Hy as (x & <- & _). apply H.
  - apply Forall_forall. intros r Hr. apply in_map_iff in Hr.
    destruct Hr as (r' & <- & _). apply Forall_forall. intros y Hy.
    apply in_map_iff in Hy. destruct Hy as (x & <- & _). apply H.
Qed.

(** ** Shapes along back-propagation *)

Lemma has_shape_fun feed t s1 s2 :
  has_shape feed t s1 -> has_shape feed t s2 -> s1 = s2.
Proof.
  intros (v1 & E1 & <-) (v2 & E2 & <-). rewrite E1 in E2. now injection E2 as <-.
Qed.

Lemma has_shape_lift1 feed n o x s f :
  (forall v, eval_un o v = Some (lift1 f v)) ->
  has_shape feed x s -> has_shape feed (Unary n o x) s.
Proof.
  intros Ho (v & E & <-). exists (lift1 f v). cbn [eval]. rewrite E. cbn [obind].
  split; [apply Ho|apply lift1_shape].
Qed.

Lemma has_shape_lift2 feed n o x y s f :
  (forall v w, eval_bin o v w = lift2 f v w) ->
  has_shape feed x s -> has_shape feed y s ->
  has_shape feed (Binary n o x y) s.
Proof.
  intros Ho (v & Ev & <-) (w & Ew & Hs).
  destruct (lift2_total f v w (eq_sym Hs)) as [u Hu].
  exists u. cbn [eval]. rewrite Ev, Ew. cbn [obind]. rewrite Ho.
  split; [exact Hu|]. destruct (lift2_shape _ _ _ _ Hu) as [H1 H2]. congruence.
Qed.

Lemma reduce_sum_shape v w :
  reduce_sum v = Some w -> reduce_shape (shape_of v) = Some (shape_of w).
Proof.
  destruct v as [r|l|m]; cbn; intros H; [discriminate| |]; injection H as <-.
  - reflexivity.
  - cbn. unfold dims. now rewrite !length_map.
Qed.

Lemma has_shape_reduce feed n x s s' :
  has_shape feed x s -> reduce_shape s = Some s' ->
  has_shape feed (Unary n ReduceSum x) s'.
Proof.
  intros (v & E & <-) Hr. unfold has_shape. cbn [eval]. rewrite E.
  cbn [obind eval_un].
  destruct v as [r|l|m]; cbn in Hr; [discriminate| |]; injection Hr as <-;
    eexists; (split; [reflexivity|]); cbn; [reflexivity|].
  unfold dims. now rewrite !length_map.
Qed.

Lemma fill_rows_dims l : forall m m',
  fill_rows l m = Some m' -> length l = length m /\ dims m' = dims m.
Proof.
  induction l as [|x l IH]; intros [|r m] m' H; cbn in H; try discriminate.
  - injection H as <-. now split.
  - destruct (fill_rows l m) as [m0|] eqn:E; cbn in H; [|discriminate].
    injection H as <-. destruct (IH _ _ E) as [H1 H2].
    unfold dims in *. cbn. rewrite H1, H2, length_map. now split.
Qed.

Lemma fill_rows_total l : forall m,
  length l = length m -> exists m', fill_rows l m = Some m'.
Proof.
  induction l as [|x l IH]; intros [|r m] H; cbn in H; try discriminate.
  - now exists [].
  - injection H as H. destruct (IH _ H) as [m' E]. cbn. rewrite E. now eexists.
Qed.

Lemma broadcast_like_shape v w u :
  broadcast_like v w = Some u ->
  reduce_shape (shape_of w) = Some (shape_of v) /\ shape_of u = shape_of w.
Proof.
  destruct v as [x|l|m0], w as [y|l2|m]; cbn [broadcast_like]; try discriminate.
  - intros H. injection H as <-. cbn. now rewrite length_map.
  - destruct (fill_rows l m) as [m'|] eqn:E; cbn [option_map]; [|discriminate].
    intros H. injection H as <-. destruct (fill_rows_dims _ _ _ E) as [H1 H2].
    cbn. unfold dims in *. rewrite length_map, H1, H2. now split.
Qed.

Lemma has_shape_broadcast feed n x y s s' :
  has_shape feed x s' -> has_shape feed y s -> reduce_shape s = Some s' ->
  has_shape feed (Binary n BroadcastLike x y) s.
Proof.
  intros (v & Ev & <-) (w & Ew & <-) Hr. unfold has_shape. cbn [eval].
  rewrite Ev, Ew. cbn [obind eval_bin].
  destruct w as [y0|l2|m]; cbn in Hr; [discriminate| |]; injection Hr as Hr.
  - destruct v as [x0|l|m0]; cbn in Hr; try discriminate.
    eexists. split; [reflexivity|]. cbn. now rewrite length_map.
  - destruct v as [x0|l|m0]; cbn in Hr; try discriminate. injection Hr as Hr.
    unfold dims in Hr. rewrite length_map in Hr.
    destruct (fill_rows_total l m (eq_sym Hr)) as [m' E].
    cbn [broadcast_like]. rewrite E. eexists. split; [reflexivity|].
    destruct (fill_rows_dims _ _ _ E) as [_ H2]. cbn. now rewrite H2.
Qed.

(** What the value of a node tells about its operands. *)
Lemma has_shape_unary_inv feed n o x st :
  has_shape feed (Unary n o x) st ->
  exists sx, has_shape feed x sx /\
             if differentiable o then
               match o with
               | ReduceSum => reduce_shape sx = Some st
               | _ => sx = st
               end
             else True.
Proof.
  intros (v & E & <-). cbn [eval] in E.
  destruct (eval feed x) as [vx|] eqn:Ex; cbn [obind] in E; [|discriminate].
  exists (shape_of vx). split; [now exists vx|].
  destruct o; cbn in E |- *; try (injection E as <-; now rewrite lift1_shape);
    try exact I.
  now apply reduce_sum_shape.
Qed.

Lemma has_shape_binary_inv feed n o x y st :
  has_shape feed (Binary n o x y) st ->
  exists sx sy, has_shape feed x sx /\ has_shape feed y sy /\
                match o with
                | BroadcastLike => reduce_shape sy = Some sx /\ sy = st
                | _ => sx = st /\ sy = st
                end.
Proof.
  intros (v & E & <-). cbn [eval] in E.
  destruct (eval feed x) as [vx|] eqn:Ex; cbn [obind] in E; [|discriminate].
  destruct (eval feed y) as [vy|] eqn:Ey; cbn [obind] in E; [|discriminate].
  exists (shape_of vx), (shape_of vy).
  split; [now exists vx|]. split; [now exists vy|].
  destruct o; cbn [eval_bin] in E;
    try (destruct (lift2_shape _ _ _ _ E) as [H1 H2]; split; congruence).
  destruct (broadcast_like_shape _ _ _ E) as [H1 H2]. split; congruence.
Qed.

Ltac elementwise :=
  first [ eapply has_shape_lift1; [intros; reflexivity|]
        | eapply has_shape_lift2; [intros; reflexivity| |] ].

Lemma grad_un_has_shape feed o n x u g ga g1 sx st :
  has_shape feed x sx ->
  has_shape feed (Unary n o x) st ->
  has_shape feed u st ->
  grad_un o (Unary n o x) x u g = Ok (Some ga) g1 ->
  has_shape feed ga sx.
Proof.
  intros Hx Ht Hu H.
  destruct (has_shape_unary_inv _ _ _ _ _ Ht) as (sx' & Hx' & Hrel).
  rewrite (has_shape_fun _ _ _ _ Hx' Hx) in Hrel. clear sx' Hx'.
  destruct o; cbn in H, Hrel; try discriminate;
    injection H as <- _; try subst st; repeat elementwise; try assumption.
  now apply has_shape_broadcast with (s' := st).
Qed.

Lemma grad_bin_has_shape feed o n x y u g gx gy g1 sx sy st :
  has_shape feed x sx ->
  has_shape feed y sy ->
  has_shape feed (Binary n o x y) st ->
  has_shape feed u st ->
  grad_bin o x y u g = Ok (gx, gy) g1 ->
  (forall t, gx = Some t -> has_shape feed t sx) /\
  (forall t, gy = Some t -> has_shape feed t sy).
Proof.
  intros Hx Hy Ht Hu H.
  destruct (has_shape_binary_inv _ _ _ _ _ _ Ht) as (sx' & sy' & Hx' & Hy' & Hrel).
  rewrite (has_shape_fun _ _ _ _ Hx' Hx), (has_shape_fun _ _ _ _ Hy' Hy) in Hrel.
  clear sx' sy' Hx' Hy'.
  destruct o; cbn in H; injection H as <- <- _; destruct Hrel as [H1 H2];
    try subst sx; try subst sy;
    (split; intros t Et; try discriminate; injection Et as <-);
    repeat elementwise; try assumption.
  now apply has_shape_reduce with (s := st).
Qed.

Lemma add_n_has_shape feed ra rb g r g' s :
  add_n ra rb g = Ok (Some r) g' ->
  (forall t, ra = Some t -> has_shape feed t s) ->
  (forall t, rb = Some t -> has_shape feed t s) ->
  has_shape feed r s.
Proof.
  intros H Ha Hb. destruct ra as [ta|], rb as [tb|]; cbn in H;
    try discriminate; injection H as <- _; auto.
  elementwise; auto.
Qed.

(** Back-propagation keeps shapes: when the graph of [t] evaluates and
    the incoming gradient has the shape of [t], the gradient delivered at
    [a] evaluates and has the shape of [a]. *)
Lemma backprop_has_shape feed a sa :
  has_shape feed a sa ->
  forall t u g r g' st,
    unique_node a t ->
    has_shape feed t st ->
    has_shape feed u st ->
    backprop t u (id_of a) g = Ok (Some r) g' ->
    has_shape feed r sa.
Proof.
  intros Ha.
  induction t as [n|n v|n o x IHx|n o x IHx y IHy];
    intros u g r g' st Hun Ht Hu H; rewrite backprop_eq in H;
    cbn [unique_node id_of] in Hun, H;
    destruct (Nat.eqb n (id_of a)) eqn:E;
    try (subst a; injection H as <- _;
         now rewrite (has_shape_fun _ _ _ _ Ha Ht));
    try discriminate.
  - destruct (bind_inv _ _ _ _ _ H) as (ga & g1 & Hga & Hk).
    destruct ga as [ga|]; [|discriminate].
    destruct (has_shape_unary_inv _ _ _ _ _ Ht) as (sx & Hx & _).
    apply (IHx ga g1 r g' sx Hun Hx); [|exact Hk].
    exact (grad_un_has_shape _ _ _ _ _ _ _ _ _ _ Hx Ht Hu Hga).
  - destruct Hun as [Hunx Huny].
    destruct (bind_inv _ _ _ _ _ H) as ([gx gy] & g1 & Hgs & Hk).
    cbn [fst snd] in Hk.
    destruct (bind_inv _ _ _ _ _ Hk) as (ra & g2 & Hra & Hk2).
    destruct (bind_inv _ _ _ _ _ Hk2) as (rb & g3 & Hrb & Hadd).
    destruct (has_shape_binary_inv _ _ _ _ _ _ Ht) as (sx & sy & Hx & Hy & _).
    destruct (grad_bin_has_shape _ _ _ _ _ _ _ _ _ _ _ _ _ Hx Hy Ht Hu Hgs)
      as [Hgx Hgy].
    apply (add_n_has_shape _ _ _ _ _ _ _ Hadd).
    + intros t ->. destruct gx as [gx|]; [|discriminate].
      exact (IHx gx g1 t g2 sx Hunx Hx (Hgx _ eq_refl) Hra).
    + intros t ->. destruct gy as [gy|]; [|discriminate].
      exact (IHy gy g2 t g3 sy Huny Hy (Hgy _ eq_refl) Hrb).
Qed.

(** ** Error behaviour *)

(** C2: when [q_max] has no differentiable dependency on [a_max], the
    differentiation engine answers [None] and [dpg] raises the
    [ValueError] "q_max needs to be a function of a_max", whatever the
    clipping arguments are; no loss is returned. *)
Theorem dpg_requires_dependency q a clip norm g :
  depends_on q (id_of a) = false ->
  (exists g1, tf_gradients q a g = Ok None g1) /\
  dpg q a clip norm g =
  Raised (ValueError (Msg "q_max needs to be a function of a_max")) /\
  (forall out g', dpg q a clip norm g <> Ok out g').
Proof.
  intros Hdep.
  destruct (tf_gradients_spec q a g) as (r & g1 & Hg & _ & Hs).
  rewrite Hdep in Hs. destruct r; [discriminate|].
  split; [now exists g1|].
  rewrite (dpg_no_gradient _ _ _ _ _ _ Hg). split; [reflexivity|].
  intros out g'. discriminate.
Qed.

(** C3: when the gradient exists and the clip magnitude is not
    positive, [dpg] raises the [ValueError] "dqda_clipping should be
    bigger than 0, {} found", with [clip_norm] true as with [clip_norm]
    false. *)
Theorem dpg_rejects_nonpositive_clipping q a c norm g :
  depends_on q (id_of a) = true ->
  c <= 0 ->
  dpg q a (Some c) norm g =
  Raised (ValueError
            (Format "dqda_clipping should be bigger than 0, {} found" c)).
Proof.
  intros Hdep Hc.
  destruct (tf_gradients_spec q a g) as (r & g1 & Hg & _ & Hs).
  rewrite Hdep in Hs. destruct r as [d0|]; [|discriminate].
  exact (dpg_nonpositive _ _ _ _ _ _ _ Hg Hc).
Qed.

(** C10: when [q_max] does not depend on [a_max] and the clip magnitude
    is not positive, the call raises the missing-dependency error and no
    clip-magnitude error, in either clipping mode: the magnitude is looked
    at only once the gradient exists. *)
Theorem dpg_checks_dependency_first q a c norm g :
  depends_on q (id_of a) = false ->
  c <= 0 ->
  dpg q a (Some c) norm g =
  Raised (ValueError (Msg "q_max needs to be a function of a_max")) /\
  forall s r, dpg q a (Some c) norm g <> Raised (ValueError (Format s r)).
Proof.
  intros Hdep Hc.
  destruct (tf_gradients_spec q a g) as (r & g1 & Hg & _ & Hs).
  rewrite Hdep in Hs. destruct r; [discriminate|].
  rewrite (dpg_no_gradient _ _ _ _ _ _ Hg). split; [reflexivity|discriminate].
Qed.

(** ** The auxiliary record *)


(** C9: without a clip magnitude the [clip_norm] flag changes nothing:
    the two calls give the same result, loss and record alike. *)
Theorem dpg_clip_norm_unused_without_clipping q a g :
  dpg q a None true g = dpg q a None false g.
Proof. reflexivity. Qed.

(** ** The loss *)

(** Lines 88 to 92 under a feed: the target is [dqda + a_max], the
    difference to [a_max] gives [dqda] back, and its squares are summed
    along the last axis. *)
Lemma eval_loss_node feed n d a D Av :
  eval feed d = Some D ->
  eval feed a = Some Av ->
  shape_of D = shape_of Av ->
  eval feed (loss_node n d a) =
  obind (reduce_sum (lift1 sq D)) (fun s => Some (lift1 (Rmult (1 / 2)) s)).
Proof.
  intros Hd Ha Hsh. unfold loss_node, target_node. cbn [eval].
  rewrite Hd, Ha. cbn [obind eval_bin eval_un].
  destruct (lift2_total Rplus D Av Hsh) as [T HT]. rewrite HT.
  cbn [obind eval_bin eval_un]. rewrite (lift2_plus_minus _ _ _ HT).
  reflexivity.
Qed.


(** ** Component-wise clipping *)

Lemma eval_clip_by_value_node feed n d lo hi :
  eval feed (clip_by_value_node n d lo hi) =
  option_map (lift1 (fun x => Rmax (Rmin x hi) lo)) (eval feed d).
Proof.
  unfold clip_by_value_node. cbn [eval].
  destruct (eval feed d) as [v|]; cbn; [|reflexivity].
  now rewrite lift1_lift1.
Qed.

Lemma max_min_is_clamp c x :
  0 < c -> Rmax (Rmin x c) (-1 * c) = clamp (- c) c x.
Proof.
  intros Hc. unfold Rmin, clamp.
  destruct (Rle_dec x c); unfold Rmax;
    match goal with |- context [Rle_dec ?u ?v] => destruct (Rle_dec u v) end;
    destruct (Rlt_dec x (- c)); try lra; destruct (Rlt_dec c x); lra.
Qed.

Lemma clamp_bounds lo hi x : lo <= hi -> lo <= clamp lo hi x <= hi.
Proof.
  intros H. unfold clamp.
  destruct (Rlt_dec x lo); [lra|]. destruct (Rlt_dec hi x); lra.
Qed.

Lemma clamp_inside lo hi x : lo <= x <= hi -> clamp lo hi x = x.
Proof.
  intros H. unfold clamp.
  destruct (Rlt_dec x lo); [lra|]. destruct (Rlt_dec hi x); lra.
Qed.

Lemma clamp_below lo hi x : x < lo -> clamp lo hi x = lo.
Proof. intros H. unfold clamp. destruct (Rlt_dec x lo); [reflexivity|lra]. Qed.

Lemma clamp_above lo hi x : lo <= hi -> hi < x -> clamp lo hi x = hi.
Proof.
  intros H H'. unfold clamp.
  destruct (Rlt_dec x lo); [lra|]. destruct (Rlt_dec hi x); [reflexivity|lra].
Qed.

(** C4: with a positive magnitude [m] and [clip_norm] false the call
    succeeds, the returned gradient is the component-wise clamp into
    [[-m, m]] of the gradient that [tf.gradients] gave, every component
    lies in [[-m, m]], and the clamp leaves components of that interval
    alone. *)
Theorem dpg_clip_by_value q a m g d0 g1 feed G :
  tf_gradients q a g = Ok (Some d0) g1 ->
  eval feed d0 = Some G ->
  0 < m ->
  exists out g',
    dpg q a (Some m) false g = Ok out g' /\
    eval feed (dqda (extra out)) = Some (lift1 (clamp (- m) m) G) /\
    Forall_value (fun x => - m <= x <= m) (lift1 (clamp (- m) m) G) /\
    (forall x, - m <= x <= m -> clamp (- m) m x = x).
Proof.
  intros Hg HG Hm. eexists. eexists.
  split; [exact (dpg_by_value _ _ _ _ _ _ Hg Hm)|].
  cbn [extra dqda]. rewrite eval_clip_by_value_node, HG. cbn [option_map].
  split; [|split].
  - f_equal. apply lift1_ext. intros x. now apply max_min_is_clamp.
  - apply Forall_value_lift1. intros x. apply clamp_bounds. lra.
  - intros x. apply clamp_inside.
Qed.

(** ** Clipping by the norm *)













(** The nodes compute what the documentation of [tf.clip_by_norm]
    promises: the row itself when its norm is at most [c], else
    [row * c / l2norm(row)]. *)
Lemma clip_row_documented c r :
  0 < c ->
  clip_row c r =
  if Rle_dec (l2norm r) c then r else map (fun x => x * c / l2norm r) r.
Proof.
  intros Hc. unfold clip_row. destruct (Rle_dec (l2norm r) c) as [Hle|Hgt].
  - rewrite Rmax_right by assumption.
    transitivity (map (fun x => x) r); [|apply map_id].
    apply map_ext. intros x. field. lra.
  - apply Rnot_le_lt in Hgt. rewrite Rmax_left by lra.
    apply map_ext. intros x. field. lra.
Qed.


(** ** The returned tensors evaluate *)

Lemma tf_gradients_has_shape feed q a g d0 g1 sq sa :
  unique_node a q ->
  has_shape feed q sq ->
  has_shape feed a sa ->
  tf_gradients q a g = Ok (Some d0) g1 ->
  has_shape feed d0 sa.
Proof.
  intros Hun Hq Ha H. unfold tf_gradients in H.
  destruct (bind_inv _ _ _ _ _ H) as (u & g2 & Hu & Hk).
  injection Hu as <- <-.
  refine (backprop_has_shape feed a sa Ha q _ _ _ _ sq Hun Hq _ Hk).
  now elementwise.
Qed.

Lemma clip_by_value_node_has_shape feed n d lo hi s :
  has_shape feed d s -> has_shape feed (clip_by_value_node n d lo hi) s.
Proof. intros H. unfold clip_by_value_node. now repeat elementwise. Qed.

Lemma clip_by_norm_node_has_shape feed n d c s s' :
  has_shape feed d s -> reduce_shape s = Some s' ->
  has_shape feed (clip_by_norm_node n d c) s.
Proof.
  intros H Hr. unfold clip_by_norm_node.
  elementwise; [now elementwise|].
  apply has_shape_broadcast with (s' := s'); [|assumption..].
  repeat elementwise. apply has_shape_reduce with (s := s); [|assumption].
  now elementwise.
Qed.

(** X3: on a graph that evaluates, with [a_max] of shape [[B, A]] and its id
    naming one node of [q_max], everything a successful call returns
    evaluates as well: [dqda] to a tensor of the shape of [a_max], the
    loss to one entry per batch element. *)
Theorem dpg_values_exist q a clip norm g out g' feed vq Av :
  dpg q a clip norm g = Ok out g' ->
  unique_node a q ->
  eval feed q = Some vq ->
  eval feed a = Some (V2 Av) ->
  exists D L,
    eval feed (dqda (extra out)) = Some (V2 D) /\
    dims D = dims Av /\
    eval feed (loss out) = Some (V1 L) /\
    length L = length Av.
Proof.
  intros H Hun Hq Ha.
  assert (Hqs : has_shape feed q (shape_of vq)) by now exists vq.
  assert (Has : has_shape feed a (Sh2 (dims Av))) by now exists (V2 Av).
  destruct (dpg_loss_node _ _ _ _ _ _ _ H) as (n & _ & Hl).
  destruct (dpg_inv _ _ _ _ _ _ _ H) as (d0 & g1 & Hg & Hout).
  pose proof (tf_gradients_has_shape _ _ _ _ _ _ _ _ Hun Hqs Has Hg) as Hd0.
  assert (Hd : has_shape feed (dqda (extra out)) (Sh2 (dims Av))).
  { destruct clip as [c|].
    - destruct Hout as [_ Hout]. destruct norm; subst out; cbn [extra dqda].
      + now apply clip_by_norm_node_has_shape with (s' := Sh1 (length (dims Av))).
      + now apply clip_by_value_node_has_shape.
    - now subst out. }
  destruct Hd as (v & Ev & Hv).
  destruct v as [r|l|D]; cbn in Hv; try discriminate. injection Hv as Hv.
  exists D, (map half_sq_norm D). split; [exact Ev|]. split; [exact Hv|].
  rewrite Hl.
  rewrite (eval_loss_node feed n _ _ (V2 D) (V2 Av) Ev Ha)
    by (cbn; now rewrite Hv).
  cbn. rewrite !map_map. split; [reflexivity|].
  rewrite length_map. unfold dims in Hv.
  now rewrite <- (length_map (@length R) D), Hv, length_map.
Qed.

(** ** Where the gradient of the loss goes *)

Lemma depends_on_loss_node n d a x :
  (x < n)%nat -> depends_on (loss_node n d a) x = depends_on a x.
Proof.
  intros Hx. unfold loss_node, target_node.
  cbn [depends_on id_of differentiable differentiable_snd andb].
  repeat match goal with
         | |- context [Nat.eqb ?u x] =>
             replace (Nat.eqb u x) with false
               by (symmetry; apply Nat.eqb_neq; lia)
         end.
  cbn [orb andb]. reflexivity.
Qed.

(** C6: the loss of a successful call is
    [0.5 * reduce_sum(square(stop_gradient(dqda + a_max) - a_max), -1)],
    and for every node [w] that existed before the call the loss depends
    differentiably on [w] exactly when [a_max] does: differentiating the
    loss with respect to [w] delivers a gradient if [a_max] depends on
    [w] and [None] otherwise, whatever [q_max] depends on. *)
Theorem dpg_gradient_through_a_max_only q a clip norm g out g' :
  dpg q a clip norm g = Ok out g' ->
  exists n,
    loss out =
    Unary (n + 5) (ScalarMul (1 / 2))
      (Unary (n + 4) ReduceSum
         (Unary (n + 3) Square
            (Binary (n + 2) Sub
               (Unary (n + 1) StopGradient
                  (Binary n Add (dqda (extra out)) a))
               a))) /\
    forall w, (id_of w < g)%nat ->
      depends_on (loss out) (id_of w) = depends_on a (id_of w) /\
      forall g2, exists r g3,
        tf_gradients (loss out) w g2 = Ok r g3 /\
        is_some r = depends_on a (id_of w).
Proof.
  intros H. destruct (dpg_loss_node _ _ _ _ _ _ _ H) as (n & Hn & Hl).
  exists n. split; [exact Hl|].
  intros w Hw.
  assert (E : depends_on (loss out) (id_of w) = depends_on a (id_of w)).
  { rewrite Hl. apply depends_on_loss_node. lia. }
  split; [exact E|].
  intros g2. destruct (tf_gradients_spec (loss out) w g2) as (r & g3 & Hr & _ & Hs).
  exists r, g3. split; [exact Hr|]. now rewrite Hs.
Qed.

(** ** The gradient of the loss with respect to [a_max] *)







(** ** The worked graph *)

Lemma example_gradient :
  tf_gradients Example.q Example.a Example.graph
  = Ok (Some Example.dqda_raw) 10%nat.
Proof. reflexivity. Qed.

Lemma example_gradient_value :
  eval Example.feed Example.dqda_raw = Some (V2 [[-2; -2]]).
Proof. cbn. repeat f_equal; lra. Qed.

Lemma example_out :
  dpg Example.q Example.a None false Example.graph = Ok Example.out 16%nat.
Proof. reflexivity. Qed.

(** C7: for [q_max = -||a_max||^2] at [a_max = [[1, 1]]], without
    clipping [dqda] is [[-2, -2]] and the loss is [4]; with component-wise
    clipping at magnitude [1], [dqda] is [[-1, -1]] and the loss is
    [1]. *)
Theorem dpg_worked_example :
  (exists out g',
      dpg Example.q Example.a None false Example.graph = Ok out g' /\
      eval Example.feed (dqda (extra out)) = Some (V2 [[-2; -2]]) /\
      eval Example.feed (loss out) = Some (V1 [4])) /\
  (exists out g',
      dpg Example.q Example.a (Some 1) false Example.graph = Ok out g' /\
      eval Example.feed (dqda (extra out)) = Some (V2 [[-1; -1]]) /\
      eval Example.feed (loss out) = Some (V1 [1])).
Proof.
  pose proof example_gradient as Hg. pose proof example_gradient_value as Hd.
  set (d0 := Example.dqda_raw) in *. set (g1 := 10%nat) in *. split.
  - eexists. eexists. split; [exact (dpg_unclipped _ _ _ _ _ _ Hg)|].
    cbn [extra dqda loss]. split; [exact Hd|].
    rewrite (eval_loss_node _ _ _ _ _ (V2 [[1; 1]]) Hd); [|reflexivity..].
    cbn. unfold sq. repeat f_equal. lra.
  - assert (Hc : eval Example.feed (clip_by_value_node g1 d0 (-1 * 1) 1)
                 = Some (V2 [[-1; -1]])).
    { rewrite eval_clip_by_value_node, Hd. cbn.
      rewrite (max_min_is_clamp 1 (-2)) by lra.
      rewrite clamp_below by lra. repeat f_equal; lra. }
    eexists. eexists. split; [apply (dpg_by_value _ _ _ _ _ _ Hg); lra|].
    cbn [extra dqda loss]. split; [exact Hc|].
    rewrite (eval_loss_node _ _ _ _ _ (V2 [[1; 1]]) Hc); [|reflexivity..].
    cbn. unfold sq. repeat f_equal. lra.
Qed.

Lemma actor_critic_out :
  dpg ActorCritic.q ActorCritic.a None false ActorCritic.graph
  = Ok ActorCritic.out 16%nat.
Proof. reflexivity. Qed.

(** The critic's weight feeds [q_max], yet the loss has no gradient with
    respect to it; the actor's parameter gets one. *)
Lemma actor_critic_gradients :
  depends_on ActorCritic.q (id_of ActorCritic.w) = true /\
  tf_gradients (loss ActorCritic.out) ActorCritic.w 16%nat = Ok None 24%nat /\
  exists r,
    tf_gradients (loss ActorCritic.out) ActorCritic.theta 16%nat
    = Ok (Some r) 24%nat.
Proof.
  split; [reflexivity|]. split; [reflexivity|]. eexists. reflexivity.
Qed.

(** ** The theorems at the worked graph *)


Lemma dpg_requires_dependency_witness :
  depends_on Example.q_const (id_of Example.a) = false /\
  (exists g1, tf_gradients Example.q_const Example.a Example.graph = Ok None g1) /\
  dpg Example.q_const Example.a None false Example.graph =
  Raised (ValueError (Msg "q_max needs to be a function of a_max")) /\
  (forall out g',
      dpg Example.q_const Example.a None false Example.graph <> Ok out g').
Proof.
  split; [reflexivity|].
  exact (dpg_requires_dependency Example.q_const Example.a None false
           Example.graph eq_refl).
Defined.

Lemma dpg_rejects_nonpositive_clipping_witness :
  depends_on Example.q (id_of Example.a) = true /\
  -1 <= 0 /\
  dpg Example.q Example.a (Some (-1)) true Example.graph =
  Raised (ValueError
            (Format "dqda_clipping should be bigger than 0, {} found" (-1))).
Proof.
  assert (H : -1 <= 0) by lra.
  split; [reflexivity|]. split; [exact H|].
  exact (dpg_rejects_nonpositive_clipping Example.q Example.a (-1) true
           Example.graph eq_refl H).
Defined.

Lemma dpg_clip_by_value_witness :
  tf_gradients Example.q Example.a Example.graph
  = Ok (Some Example.dqda_raw) 10%nat /\
  eval Example.feed Example.dqda_raw = Some (V2 [[-2; -2]]) /\
  0 < 1 /\
  exists out g',
    dpg Example.q Example.a (Some 1) false Example.graph = Ok out g' /\
    eval Example.feed (dqda (extra out))
    = Some (lift1 (clamp (- 1) 1) (V2 [[-2; -2]])) /\
    Forall_value (fun x => - 1 <= x <= 1)
                 (lift1 (clamp (- 1) 1) (V2 [[-2; -2]])) /\
    (forall x, - 1 <= x <= 1 -> clamp (- 1) 1 x = x).
Proof.
  assert (Hd : eval Example.feed Example.dqda_raw = Some (V2 [[-2; -2]])).
  { cbn. repeat f_equal; lra. }
  assert (H : 0 < 1) by lra.
  split; [reflexivity|]. split; [exact Hd|]. split; [exact H|].
  exact (dpg_clip_by_value Example.q Example.a 1 Example.graph
           Example.dqda_raw 10%nat Example.feed (V2 [[-2; -2]])
           eq_refl Hd H).
Defined.


Lemma dpg_gradient_through_a_max_only_witness :
  dpg ActorCritic.q ActorCritic.a None false ActorCritic.graph
  = Ok ActorCritic.out 16%nat /\
  exists n,
    loss ActorCritic.out =
    Unary (n + 5) (ScalarMul (1 / 2))
      (Unary (n + 4) ReduceSum
         (Unary (n + 3) Square
            (Binary (n + 2) Sub
               (Unary (n + 1) StopGradient
                  (Binary n Add (dqda (extra ActorCritic.out)) ActorCritic.a))
               ActorCritic.a))) /\
    forall w, (id_of w < ActorCritic.graph)%nat ->
      depends_on (loss ActorCritic.out) (id_of w)
      = depends_on ActorCritic.a (id_of w) /\
      forall g2, exists r g3,
        tf_gradients (loss ActorCritic.out) w g2 = Ok r g3 /\
        is_some r = depends_on ActorCritic.a (id_of w).
Proof.
  split; [reflexivity|].
  exact (dpg_gradient_through_a_max_only ActorCritic.q ActorCritic.a None
           false ActorCritic.graph ActorCritic.out 16%nat eq_refl).
Defined.


Lemma dpg_checks_dependency_first_witness :
  depends_on Example.q_const (id_of Example.a) = false /\
  -1 <= 0 /\
  dpg Example.q_const Example.a (Some (-1)) false Example.graph =
  Raised (ValueError (Msg "q_max needs to be a function of a_max")) /\
  forall s r,
    dpg Example.q_const Example.a (Some (-1)) false Example.graph <>
    Raised (ValueError (Format s r)).
Proof.
  assert (H : -1 <= 0) by lra.
  split; [reflexivity|]. split; [exact H|].
  exact (dpg_checks_dependency_first Example.q_const Example.a (-1) false
           Example.graph eq_refl H).
Defined.

(** ** Every outcome of a call *)


(** X2: a value estimate that is a constant, or that reaches the graph only
    through [stop_gradient], is rejected whatever it was computed from. *)
Theorem dpg_rejects_constant_and_detached n a clip norm g :
  n <> id_of a ->
  (forall v, dpg (Const n v) a clip norm g =
             Raised (ValueError (Msg "q_max needs to be a function of a_max"))) /\
  (forall t, dpg (Unary n StopGradient t) a clip norm g =
             Raised (ValueError (Msg "q_max needs to be a function of a_max"))).
Proof.
  intros Hn. apply Nat.eqb_neq in Hn. split.
  - intros v.
    destruct (tf_gradients_spec (Const n v) a g) as (r & g1 & Hg & _ & Hs).
    cbn in Hs. rewrite Hn in Hs. destruct r; [discriminate|].
    exact (dpg_no_gradient _ _ _ _ _ _ Hg).
  - intros t.
    destruct (tf_gradients_spec (Unary n StopGradient t) a g)
      as (r & g1 & Hg & _ & Hs).
    cbn in Hs. rewrite Hn in Hs. destruct r; [discriminate|].
    exact (dpg_no_gradient _ _ _ _ _ _ Hg).
Qed.

(** ** More about the loss and the clipped gradient *)


(** The value of the loss is a function of the values of [dqda] and
    [a_max] alone. *)
Lemma eval_loss_node_congr feed n n' d d' a :
  eval feed d = eval feed d' ->
  eval feed (loss_node n d a) = eval feed (loss_node n' d' a).
Proof.
  intros E. unfold loss_node, target_node. cbn [eval]. now rewrite E.
Qed.














Lemma lift1_fixed (P : R -> Prop) f v :
  (forall x, P x -> f x = x) -> Forall_value P v -> lift1 f v = v.
Proof.
  intros Hf. destruct v as [r|l|m]; cbn; intros H.
  - now rewrite Hf.
  - f_equal. induction H; cbn; [reflexivity|]. now rewrite Hf, IHForall.
  - f_equal. induction H as [|row m Hrow _ IH]; cbn; [reflexivity|].
    rewrite IH. f_equal.
    induction Hrow; cbn; [reflexivity|]. now rewrite Hf, IHHrow.
Qed.






(** X6: component-wise clipping with a magnitude that no component of the
    gradient exceeds changes no value: [dqda] and the loss evaluate as in
    the call without clipping. *)
Theorem dpg_clip_by_value_inactive q a m g d0 g1 feed G :
  tf_gradients q a g = Ok (Some d0) g1 ->
  eval feed d0 = Some G ->
  0 < m ->
  Forall_value (fun x => - m <= x <= m) G ->
  exists out g' out0 g0',
    dpg q a (Some m) false g = Ok out g' /\
    dpg q a None false g = Ok out0 g0' /\
    eval feed (dqda (extra out)) = Some G /\
    eval feed (dqda (extra out0)) = Some G /\
    eval feed (loss out) = eval feed (loss out0).
Proof.
  intros Hg HG Hm Hin. do 4 eexists.
  split; [exact (dpg_by_value _ _ _ _ _ _ Hg Hm)|].
  split; [exact (dpg_unclipped _ _ _ _ _ _ Hg)|].
  cbn [extra dqda loss].
  assert (E : eval feed (clip_by_value_node g1 d0 (-1 * m) m) = Some G).
  { rewrite eval_clip_by_value_node, HG. cbn [option_map]. f_equal.
    apply (lift1_fixed (fun x => - m <= x <= m)); [|exact Hin].
    intros x Hx. rewrite max_min_is_clamp by assumption.
    now apply clamp_inside. }
  split; [exact E|]. split; [exact HG|].
  apply eval_loss_node_congr. now rewrite E, HG.
Qed.









(** ** The further properties at the worked graph *)


Lemma dpg_rejects_constant_and_detached_witness :
  4%nat <> id_of Example.a /\
  (forall v, dpg (Const 4 v) Example.a None false Example.graph =
             Raised (ValueError (Msg "q_max needs to be a function of a_max"))) /\
  (forall t, dpg (Unary 4 StopGradient t) Example.a None false Example.graph =
             Raised (ValueError (Msg "q_max needs to be a function of a_max"))).
Proof.
  assert (H : 4%nat <> id_of Example.a) by (cbn; lia).
  split; [exact H|].
  exact (dpg_rejects_constant_and_detached 4 Example.a None false
           Example.graph H).
Defined.

Lemma dpg_values_exist_witness :
  dpg Example.q Example.a None false Example.graph = Ok Example.out 16%nat /\
  unique_node Example.a Example.q /\
  eval Example.feed Example.q = Some (V1 [- (1 * 1 + (1 * 1 + 0))]) /\
  eval Example.feed Example.a = Some (V2 [[1; 1]]) /\
  exists D L,
    eval Example.feed (dqda (extra Example.out)) = Some (V2 D) /\
    dims D = dims [[1; 1]] /\
    eval Example.feed (loss Example.out) = Some (V1 L) /\
    length L = length [[1; 1]].
Proof.
  split; [reflexivity|]. split; [reflexivity|]. split; [reflexivity|].
  split; [reflexivity|].
  exact (dpg_values_exist Example.q Example.a None false Example.graph
           Example.out 16%nat Example.feed _ [[1; 1]]
           eq_refl eq_refl eq_refl eq_refl).
Defined.



Lemma dpg_clip_by_value_inactive_witness :
  tf_gradients Example.q Example.a Example.graph
  = Ok (Some Example.dqda_raw) 10%nat /\
  eval Example.feed Example.dqda_raw = Some (V2 [[-2; -2]]) /\
  0 < 3 /\
  Forall_value (fun x => - 3 <= x <= 3) (V2 [[-2; -2]]) /\
  exists out g' out0 g0',
    dpg Example.q Example.a (Some 3) false Example.graph = Ok out g' /\
    dpg Example.q Example.a None false Example.graph = Ok out0 g0' /\
    eval Example.feed (dqda (extra out)) = Some (V2 [[-2; -2]]) /\
    eval Example.feed (dqda (extra out0)) = Some (V2 [[-2; -2]]) /\
    eval Example.feed (loss out) = eval Example.feed (loss out0).
Proof.
  assert (H : 0 < 3) by lra.
  assert (Hin : Forall_value (fun x => - 3 <= x <= 3) (V2 [[-2; -2]])).
  { cbn. repeat (constructor; try lra). }
  split; [reflexivity|]. split; [exact example_gradient_value|].
  split; [exact H|]. split; [exact Hin|].
  exact (dpg_clip_by_value_inactive Example.q Example.a 3 Example.graph
           Example.dqda_raw 10%nat Example.feed (V2 [[-2; -2]])
           eq_refl example_gradient_value H Hin).
Defined.







